(** * fix_defer.py: a three-rule literal patch of one source file

    The script reads [app/routes/app._index.tsx], applies three chained
    [str.replace] calls and writes the result back to the same path.

    The development has three layers:
    - [Str]: Python text and the built-in string operations the script
      calls ([str.replace], together with the search it is built on);
    - [Patch]: the three rules and the chain of replacements;
    - [Script]: the file system, the [open]/[read]/[write] calls and the
      script itself, as a state-and-exception monad over a world that
      records every file operation. *)

From Stdlib Require Import NArith Ascii String List Lia.
From stdpp Require Import base option list gmap strings.
From Equations Require Import Equations.

(** A Python [str] is a sequence of Unicode code points.  File contents are
    the decoded text, that is the value [f.read()] returns and [f.write]
    receives. *)
Abbreviation text := (list N).

(** ** Python strings *)
Module Str.

(** An ASCII literal of the source as text. *)
Definition lit (s : string) : text :=
  map N_of_ascii (list_ascii_of_string s).

(** The two characters the source writes with an escape: the double quote
    and the line feed. *)
Definition dquote : text := [34%N].
Definition newline : text := [10%N].

(** [s.startswith(p)]. *)
Fixpoint startswith (s p : text) {struct p} : bool :=
  match p, s with
  | [], _ => true
  | _ :: _, [] => false
  | a :: p', b :: s' => N.eqb a b && startswith s' p'
  end.

(** [s.find(sub)]: the lowest index at which [sub] occurs, [None] for
    Python's [-1]. *)
Fixpoint find (s sub : text) {struct s} : option nat :=
  if startswith s sub then Some 0
  else match s with
       | [] => None
       | _ :: s' => S <$> find s' sub
       end.

(** [s.replace(old, new)].  As in CPython, the result is built by a loop
    that searches the next occurrence of [old] from the current position,
    copies the text before it, copies [new] and resumes right after the
    occurrence; what follows the last occurrence is copied unchanged.  An
    empty [old] matches between any two characters and at both ends. *)
Equations? replace (s old new : text) : text by wf (length s) lt :=
  replace s [] new := new ++ flat_map (fun c => c :: new) s;
  replace [] (o :: old) new := [];
  replace (c :: s) (o :: old) new with find (c :: s) (o :: old) := {
    | None => c :: s
    | Some j => take j (c :: s) ++ new
                  ++ replace (drop (j + length (o :: old)) (c :: s))
                       (o :: old) new }.
Proof.
  replace (j + S (length old)) with (S (j + length old)) by lia.
  simpl. rewrite length_drop. lia.
Qed.

(** [sub] occurs in [s] at index [i]. *)
Definition occ_at (s : text) (i : nat) (sub : text) : Prop :=
  startswith (drop i s) sub = true.

(** All the indices at which [sub] occurs in [s], overlapping occurrences
    included. *)
Definition occurrences (s sub : text) : list nat :=
  filter (fun i => startswith (drop i s) sub = true) (seq 0 (S (length s))).

(** [sub in s]. *)
Definition contains (s sub : text) : bool :=
  match find s sub with Some _ => true | None => false end.

(** Two texts carry the same characters wherever both are defined. *)
Fixpoint agree (a b : text) : bool :=
  match a, b with
  | x :: a', y :: b' => N.eqb x y && agree a' b'
  | _, _ => true
  end.

(** No occurrence of [p] in a text [A ++ m ++ B] can overlap the block [m]
    without lying inside it: [p] laid over [m] at any other offset, to the
    left ([k] characters early) or to the right ([d] characters late),
    disagrees with [m] on one of the characters they share. *)
Definition isolated (p m : text) : bool :=
  forallb (fun k => negb (agree (drop k p) m)) (seq 1 (length p - 1))
  && forallb (fun d => (d + length p <=? length m)
                       || negb (agree p (drop d m))) (seq 0 (length m)).

(** The specification's wording of one step, to be compared with [replace]:
    every non-overlapping occurrence of [old], taken from the left, is
    replaced by [new], and a text without occurrence is left as it is. *)
Inductive replaces_every (old new : text) : text -> text -> Prop :=
| every_none (s : text) :
    (forall i, ~ occ_at s i old) ->
    replaces_every old new s s
| every_next (X Y Y' : text) :
    (forall i, i < length X -> ~ occ_at (X ++ old ++ Y) i old) ->
    replaces_every old new Y Y' ->
    replaces_every old new (X ++ old ++ Y) (X ++ new ++ Y').

End Str.

(** ** The patch *)
Module Patch.
Import Str.

Definition s1 : text :=
  lit "defer, Await } from " ++ dquote ++ lit "react-router" ++ dquote ++ lit ";".
Definition r1 : text :=
  lit "Await } from " ++ dquote ++ lit "react-router" ++ dquote ++ lit ";".
Definition s2 : text := lit "return defer({".
Definition r2 : text := lit "return {".
Definition s3 : text := lit "  });" ++ newline ++ lit "};".
Definition r3 : text := lit "  };" ++ newline ++ lit "};".

(** A rule is a pair (search literal, replacement literal). *)
Definition rule1 : text * text := (s1, r1).
Definition rule2 : text * text := (s2, r2).
Definition rule3 : text * text := (s3, r3).
Definition rules : list (text * text) := [rule1; rule2; rule3].

(** Lines 6 to 8 of the script: [content] is rebound three times. *)
Definition transform (content : text) : text :=
  let content := replace content s1 r1 in
  let content := replace content s2 r2 in
  let content := replace content s3 r3 in
  content.

(** One step of the chain, and the first two steps alone. *)
Definition apply_rule (content : text) (r : text * text) : text :=
  replace content r.1 r.2.

Definition transform12 (content : text) : text :=
  replace (replace content s1 r1) s2 r2.

(** [p] occurs at exactly one index of [s]. *)
Definition once (s p : text) : Prop := length (occurrences s p) = 1.

(** None of the three search literals occurs in [s]. *)
Definition clean (s : text) : Prop :=
  contains s s1 = false /\ contains s s2 = false /\ contains s s3 = false.

(** The lines of the scenarios, before and after. *)
Definition import_line : text :=
  lit "import { defer, Await } from " ++ dquote ++ lit "react-router"
    ++ dquote ++ lit ";".
Definition import_line' : text :=
  lit "import { Await } from " ++ dquote ++ lit "react-router"
    ++ dquote ++ lit ";".
Definition return_line : text := lit "  return defer({".
Definition return_line' : text := lit "  return {".

(** A small route module of the shape the script is meant for. *)
Definition sample : text :=
  import_line ++ newline
  ++ lit "export const loader = async () => {" ++ newline
  ++ return_line ++ newline
  ++ lit "    shop: getShop()," ++ newline
  ++ lit "  });" ++ newline
  ++ lit "};" ++ newline.

Definition sample' : text :=
  import_line' ++ newline
  ++ lit "export const loader = async () => {" ++ newline
  ++ return_line' ++ newline
  ++ lit "    shop: getShop()," ++ newline
  ++ lit "  };" ++ newline
  ++ lit "};" ++ newline.

(** A text in which none of the search literals occurs. *)
Definition plain : text := lit "export default function Index() {}" ++ newline.

(** The first search literal behind a second copy of its first word. *)
Definition doubled : text := lit "defer, " ++ s1.

(** [s.count(x)] for a single character [x]. *)
Definition count_char (s : text) (x : N) : nat := count_occ N.eq_dec s x.

(** The rules applied one after the other, in the order of the list. *)
Definition chain (rs : list (text * text)) (content : text) : text :=
  foldl apply_rule content rs.

(** The block [m] stays isolated from the pattern of each step of the chain
    [rs], as the steps rewrite it. *)
Fixpoint stays_isolated (rs : list (text * text)) (m : text) : bool :=
  match rs with
  | [] => true
  | ru :: rs' => isolated ru.1 m && stays_isolated rs' (replace m ru.1 ru.2)
  end.

(** The first rule of [rs] whose search literal the text starts with. *)
Fixpoint first_match (s : text) (rs : list (text * text))
    : option (text * text) :=
  match rs with
  | [] => None
  | ru :: rs' => if startswith s ru.1 then Some ru else first_match s rs'
  end.

(** One pass over the text from the left: where a search literal starts,
    the replacement literal of its rule is put and the pass resumes behind
    the search literal; any other character is copied.  (The search
    literals are not empty: behind the first character of the literal
    [length ru.1 - 1] characters are left to skip.) *)
Equations? single_pass (s : text) : text by wf (length s) lt :=
  single_pass [] := [];
  single_pass (c :: s) with first_match (c :: s) rules := {
    | Some ru => ru.2 ++ single_pass (drop (length ru.1 - 1) s)
    | None => c :: single_pass s }.
Proof.
  all: simpl; rewrite ?length_drop; lia.
Qed.

End Patch.

(** ** The script and its world *)
Module Script.
Import Str Patch.

Inductive mode := ModeR | ModeW.

(** A regular file: its text and what the process may do with it. *)
Record file := File { data : text; readable : bool; writable : bool }.

(** The exceptions the calls of the script can raise. *)
Inductive error :=
| FileNotFoundError (p : string)
| PermissionError (p : string)
| UnsupportedOperation.

(** What a run can do that is visible from outside the process. *)
Inductive event :=
| EvOpen (p : string) (m : mode)
| EvRead (p : string) (c : text)
| EvWrite (p : string) (c : text)
| EvClose (p : string)
| EvStdout (c : text).

Definition event_path (e : event) : option string :=
  match e with
  | EvOpen p _ | EvRead p _ | EvWrite p _ | EvClose p => Some p
  | EvStdout _ => None
  end.

(** The file system, and the operations attempted so far, oldest first. *)
Record world := World { files : gmap string file; trace : list event }.

Record handle := Handle { hpath : string; hmode : mode }.

(** Statements run in a world and either return or raise; the world at the
    point of the exception is kept. *)
Definition IO (A : Type) : Type := world -> (error + A) * world.

#[global] Instance IO_ret : MRet IO := fun A x w => (inr x, w).

#[global] Instance IO_bind : MBind IO := fun A B k m w =>
  match m w with
  | (inl e, w') => (inl e, w')
  | (inr x, w') => k x w'
  end.

Definition raise {A : Type} (e : error) : IO A := fun w => (inl e, w).

Definition emit (e : event) : IO unit :=
  fun w => (inr tt, World (files w) (trace w ++ [e])).

(** [open(p, "r")] needs an existing, readable file.  [open(p, "w")]
    truncates an existing writable file and creates a missing one. *)
Definition open (p : string) (m : mode) : IO handle :=
  _ ← emit (EvOpen p m);
  (fun w =>
    match m, files w !! p with
    | ModeR, None => (inl (FileNotFoundError p), w)
    | ModeR, Some f =>
        if readable f then (inr (Handle p ModeR), w)
        else (inl (PermissionError p), w)
    | ModeW, None =>
        (inr (Handle p ModeW),
         World (<[p := File [] true true]> (files w)) (trace w))
    | ModeW, Some f =>
        if writable f
        then (inr (Handle p ModeW),
              World (<[p := File [] (readable f) true]> (files w)) (trace w))
        else (inl (PermissionError p), w)
    end) : IO handle.

(** [f.read()] on a fresh handle: the whole text of the file. *)
Definition read (f : handle) : IO text :=
  match hmode f with
  | ModeW => raise UnsupportedOperation
  | ModeR => fun w =>
      let c := default [] (data <$> files w !! hpath f) in
      (inr c, World (files w) (trace w ++ [EvRead (hpath f) c]))
  end.

(** [f.write(c)]: the text is put after what the handle wrote before; the
    call returns the number of characters written. *)
Definition write (f : handle) (c : text) : IO nat :=
  match hmode f with
  | ModeR => raise UnsupportedOperation
  | ModeW => fun w =>
      (inr (length c),
       World (alter (fun x => File (data x ++ c) (readable x) (writable x))
                (hpath f) (files w))
             (trace w ++ [EvWrite (hpath f) c]))
  end.

Definition close (f : handle) : IO unit := emit (EvClose (hpath f)).

(** [with open(p, m) as f: body]: the handle is closed when the body
    returns and when it raises. *)
Definition with_open {A : Type} (p : string) (m : mode)
    (body : handle -> IO A) : IO A :=
  f ← open p m;
  (fun w => let '(r, w') := body f w in (r, (close f w').2)) : IO A.

Definition path : string := "app/routes/app._index.tsx".

(** The script.  Its [import re] binds a module the script never uses. *)
Definition script : IO unit :=
  content ← with_open path ModeR (fun f => read f);
  let content := transform content in
  _ ← with_open path ModeW (fun f => write f content);
  mret tt.

(** The operations of a complete run on a file holding [c]. *)
Definition full_run (c : text) : list event :=
  [EvOpen path ModeR; EvRead path c; EvClose path;
   EvOpen path ModeW; EvWrite path (transform c); EvClose path].

(** The events a run adds to the trace. *)
Definition events_of (w : world) : list event :=
  drop (length (trace w)) (trace (script w).2).

(** The texts passed to [f.write], in order. *)
Definition written (l : list event) : list text :=
  omap (fun e => match e with EvWrite _ c => Some c | _ => None end) l.

(** The text of the target file, when it exists. *)
Definition content_of (w : world) : option text :=
  data <$> files w !! path.

(** Worlds to run the script in: without the target, with a target that
    holds [plain] or [sample], and with a second file and an earlier
    output besides. *)
Definition empty_world : world := World ∅ [].

Definition clean_world : world :=
  World {[ path := File plain true true ]} [].

Definition sample_world : world :=
  World {[ path := File sample true true ]} [].

Definition busy_world : world :=
  World {[ path := File sample true true;
           "README.md" := File plain true false ]}
        [EvStdout plain].


End Script.

(** * Facts about the string operations *)
Module StrFacts.
Import Str.

(** [replace] on small inputs, as Python evaluates them. *)
Example replace_all_occurrences :
  replace (lit "abcabc") (lit "bc") (lit "X") = lit "aXaX".
Proof. reflexivity. Qed.

Example replace_leftmost_first :
  replace (lit "aaa") (lit "aa") (lit "b") = lit "ba".
Proof. reflexivity. Qed.

Example replace_no_occurrence :
  replace (lit "abc") (lit "x") (lit "y") = lit "abc".
Proof. reflexivity. Qed.

Example replace_empty_pattern :
  replace (lit "abc") [] (lit "-") = lit "-a-b-c-".
Proof. reflexivity. Qed.

Example find_lowest_index : find (lit "abcabc") (lit "ca") = Some 2.
Proof. reflexivity. Qed.

Lemma startswith_iff (s p : text) :
  startswith s p = true <-> exists t, s = p ++ t.
Proof.
  revert s. induction p as [|a p IH]; intros s; simpl.
  - split; [intros _; exists s; reflexivity | reflexivity].
  - destruct s as [|b s].
    + split; [discriminate | intros [t Ht]; discriminate].
    + rewrite andb_true_iff, N.eqb_eq, IH. split.
      * intros [-> [t ->]]. eauto.
      * intros [t Ht]. injection Ht as -> ->. eauto.
Qed.

Lemma startswith_app (p t : text) : startswith (p ++ t) p = true.
Proof. apply startswith_iff. eauto. Qed.

Lemma startswith_length (s p : text) :
  startswith s p = true -> length p <= length s.
Proof.
  intros [t ->]%startswith_iff. rewrite length_app. lia.
Qed.

Lemma startswith_app_l (u v p : text) :
  length p <= length u -> startswith (u ++ v) p = startswith u p.
Proof.
  revert u. induction p as [|a p IH]; intros u Hl; [reflexivity|].
  destruct u as [|b u]; simpl in *; [lia|].
  rewrite IH by lia. reflexivity.
Qed.

Lemma startswith_drop (u v p : text) :
  startswith (u ++ v) p = true -> startswith v (drop (length u) p) = true.
Proof.
  revert p. induction u as [|b u IH]; intros p; simpl; [auto|].
  destruct p as [|a p]; simpl.
  - intros _. reflexivity.
  - rewrite andb_true_iff. intros [_ H]. auto.
Qed.

Lemma startswith_agree (m v q : text) :
  startswith (m ++ v) q = true -> agree q m = true.
Proof.
  revert m. induction q as [|a q IH]; intros m; [reflexivity|].
  destruct m as [|b m]; simpl; [reflexivity|].
  rewrite !andb_true_iff. intros [-> H]. eauto.
Qed.

(** ** Occurrences *)

Lemma occ_at_length (s : text) i (p : text) :
  p <> [] -> occ_at s i p -> i + length p <= length s.
Proof.
  unfold occ_at. intros Hp H. pose proof (startswith_length _ _ H) as Hl.
  rewrite length_drop in Hl. destruct p; [done|]. simpl in *. lia.
Qed.

Lemma occ_at_split (s : text) i (p : text) :
  p <> [] -> occ_at s i p ->
  s = take i s ++ p ++ drop (i + length p) s.
Proof.
  intros Hp H. pose proof (occ_at_length _ _ _ Hp H) as Hl.
  apply startswith_iff in H as [t Ht].
  rewrite <- (take_drop i s) at 1. f_equal.
  rewrite <- drop_drop, Ht, drop_app_length. reflexivity.
Qed.

Lemma occ_at_mid (X p Y : text) : occ_at (X ++ p ++ Y) (length X) p.
Proof. unfold occ_at. rewrite drop_app_length. apply startswith_app. Qed.

Lemma occ_at_app_l (A B : text) i (p : text) :
  i + length p <= length A -> occ_at (A ++ B) i p <-> occ_at A i p.
Proof.
  intros Hl. unfold occ_at. rewrite drop_app_le by lia.
  rewrite startswith_app_l; [reflexivity|]. rewrite length_drop. lia.
Qed.

Lemma occ_at_app_r (A B : text) i (p : text) :
  length A <= i -> occ_at (A ++ B) i p <-> occ_at B (i - length A) p.
Proof.
  intros Hl. unfold occ_at. rewrite drop_app_ge by lia. reflexivity.
Qed.

Lemma occ_at_drop (s : text) n i (p : text) :
  occ_at (drop n s) i p <-> occ_at s (n + i) p.
Proof. unfold occ_at. rewrite drop_drop. reflexivity. Qed.

(** ** [find] returns the leftmost occurrence *)

Lemma find_Some (s p : text) j :
  find s p = Some j -> occ_at s j p /\ forall i, i < j -> ~ occ_at s i p.
Proof.
  revert j. induction s as [|c s IH]; intros j; simpl find.
  - destruct (startswith [] p) eqn:E; [|discriminate].
    intros [= <-]. split; [exact E | lia].
  - destruct (startswith (c :: s) p) eqn:E.
    + intros [= <-]. split; [exact E | lia].
    + destruct (find s p) as [j'|] eqn:F; [|discriminate].
      intros [= <-]. destruct (IH j' eq_refl) as [H1 H2]. split.
      * exact H1.
      * intros [|i] Hi; unfold occ_at; simpl.
        -- rewrite E. discriminate.
        -- apply H2. lia.
Qed.

Lemma find_None (s p : text) :
  find s p = None -> forall i, ~ occ_at s i p.
Proof.
  induction s as [|c s IH]; simpl find.
  - destruct (startswith [] p) eqn:E; [discriminate|].
    intros _ i. unfold occ_at. rewrite drop_nil, E. discriminate.
  - destruct (startswith (c :: s) p) eqn:E; [discriminate|].
    destruct (find s p) eqn:F; [discriminate|].
    intros _ [|i]; unfold occ_at; simpl.
    + rewrite E. discriminate.
    + apply IH. reflexivity.
Qed.

Lemma find_first (s p : text) j :
  occ_at s j p -> (forall i, i < j -> ~ occ_at s i p) -> find s p = Some j.
Proof.
  intros Hj Hlt. destruct (find s p) as [j'|] eqn:F.
  - destruct (find_Some _ _ _ F) as [H1 H2].
    destruct (Nat.lt_trichotomy j j') as [?|[->|?]]; [|reflexivity|].
    + exfalso. eapply H2; eauto.
    + exfalso. eapply Hlt; eauto.
  - exfalso. eapply find_None; eauto.
Qed.

Lemma find_absent (s p : text) :
  (forall i, ~ occ_at s i p) -> find s p = None.
Proof.
  intros H. destruct (find s p) as [j|] eqn:F; [|reflexivity].
  exfalso. apply (H j). apply (find_Some _ _ _ F).
Qed.

(** ** The loop of [replace] *)

Lemma replace_unfold (s p r : text) :
  p <> [] ->
  replace s p r =
    match find s p with
    | None => s
    | Some j => take j s ++ r ++ replace (drop (j + length p) s) p r
    end.
Proof.
  intros Hp. destruct p as [|o p]; [done|].
  destruct s as [|c s]; simp replace; [reflexivity|].
  destruct (find (c :: s) (o :: p)); reflexivity.
Qed.

Lemma replace_absent (s p r : text) :
  (forall i, ~ occ_at s i p) -> replace s p r = s.
Proof.
  intros H. destruct p as [|o p].
  - exfalso. apply (H 0). reflexivity.
  - rewrite replace_unfold by done. rewrite find_absent; auto.
Qed.

Lemma replace_leftmost (X Y p r : text) :
  p <> [] ->
  (forall i, i < length X -> ~ occ_at (X ++ p ++ Y) i p) ->
  replace (X ++ p ++ Y) p r = X ++ r ++ replace Y p r.
Proof.
  intros Hp H. rewrite replace_unfold by done.
  rewrite (find_first _ _ (length X)); [|apply occ_at_mid|exact H].
  rewrite take_app_length.
  rewrite <- drop_drop, !drop_app_length. reflexivity.
Qed.


(** ** Blocks that no occurrence can straddle *)

Lemma isolated_spec (p m A B : text) i :
  isolated p m = true ->
  occ_at (A ++ m ++ B) i p ->
  i + length p <= length A
  \/ length A + length m <= i
  \/ (length A <= i /\ i + length p <= length A + length m).
Proof.
  unfold isolated. rewrite andb_true_iff, !forallb_forall.
  intros [Hleft Hright] Hocc.
  destruct (le_lt_dec (i + length p) (length A)) as [?|Hlt]; [by left|].
  destruct (le_lt_dec (length A + length m) i) as [?|Hlt']; [by right; left|].
  right; right. unfold occ_at in Hocc.
  destruct (le_lt_dec (length A) i) as [Hge|Hlt''].
  - split; [exact Hge|].
    rewrite drop_app_ge, drop_app_le in Hocc by lia.
    apply startswith_agree in Hocc.
    specialize (Hright (i - length A)). rewrite Hocc in Hright. simpl in Hright.
    rewrite orb_false_r in Hright.
    assert (Hin : In (i - length A) (seq 0 (length m))) by (apply in_seq; lia).
    apply Hright, Nat.leb_le in Hin. lia.
  - exfalso. rewrite drop_app_le in Hocc by lia.
    apply startswith_drop, startswith_agree in Hocc.
    rewrite length_drop in Hocc.
    specialize (Hleft (length A - i)). rewrite Hocc in Hleft.
    assert (Hin : In (length A - i) (seq 1 (length p - 1))) by (apply in_seq; lia).
    apply Hleft in Hin. discriminate.
Qed.

Lemma replace_app (A B p r : text) :
  p <> [] ->
  (forall i, occ_at (A ++ B) i p -> i + length p <= length A \/ length A <= i) ->
  replace (A ++ B) p r = replace A p r ++ replace B p r.
Proof.
  intros Hp. remember (length A) as n eqn:Hn. revert A Hn.
  induction n as [n IH] using lt_wf_ind. intros A -> Hst.
  assert (Hlen : 0 < length p) by (destruct p; [done | simpl; lia]).
  rewrite (replace_unfold (A ++ B)) by done.
  destruct (find (A ++ B) p) as [j|] eqn:F.
  - destruct (find_Some _ _ _ F) as [Hj Hfirst].
    destruct (Hst j Hj) as [Hin|Hout].
    + assert (FA : find A p = Some j).
      { apply find_first; [by apply (occ_at_app_l A B) |].
        intros i Hi Hocc. apply (Hfirst i Hi).
        apply occ_at_app_l; [lia | exact Hocc]. }
      rewrite (replace_unfold A), FA by done.
      rewrite take_app_le, drop_app_le by lia.
      rewrite (IH (length (drop (j + length p) A))); first last.
      * intros i Hocc. rewrite length_drop.
        assert (Hocc' : occ_at (A ++ B) (j + length p + i) p).
        { apply occ_at_drop. rewrite drop_app_le by lia. exact Hocc. }
        destruct (Hst _ Hocc'); lia.
      * reflexivity.
      * rewrite length_drop. lia.
      * rewrite <- !app_assoc. reflexivity.
    + assert (HA : forall i, ~ occ_at A i p).
      { intros i Hocc. pose proof (occ_at_length _ _ _ Hp Hocc).
        apply (Hfirst i); [lia|]. apply occ_at_app_l; [lia | exact Hocc]. }
      assert (FB : find B p = Some (j - length A)).
      { apply find_first; [by apply (occ_at_app_r A B) |].
        intros i Hi Hocc. apply (Hfirst (length A + i)); [lia|].
        apply occ_at_app_r; [lia|].
        replace (length A + i - length A) with i by lia. exact Hocc. }
      rewrite (replace_absent A) by exact HA.
      rewrite (replace_unfold B), FB by done.
      rewrite take_app_ge, drop_app_ge by lia.
      replace (j + length p - length A) with (j - length A + length p) by lia.
      rewrite <- !app_assoc. reflexivity.
  - pose proof (find_None _ _ F) as Hno.
    rewrite !replace_absent; [reflexivity | |].
    + intros i Hocc. apply (Hno (length A + i)). apply occ_at_app_r; [lia|].
      replace (length A + i - length A) with i by lia. exact Hocc.
    + intros i Hocc. pose proof (occ_at_length _ _ _ Hp Hocc).
      apply (Hno i). apply occ_at_app_l; [lia | exact Hocc].
Qed.

Lemma replace_mid (A m B p r : text) :
  p <> [] -> isolated p m = true ->
  replace (A ++ m ++ B) p r = replace A p r ++ replace m p r ++ replace B p r.
Proof.
  intros Hp Hiso.
  assert (Hlen : 0 < length p) by (destruct p; [done | simpl; lia]).
  rewrite replace_app; [f_equal; apply replace_app | |]; try done.
  - intros i Hocc. destruct (isolated_spec p m [] B i Hiso Hocc) as [?|[?|?]];
      simpl in *; lia.
  - intros i Hocc. destruct (isolated_spec p m A B i Hiso Hocc) as [?|[?|?]]; lia.
Qed.


(** ** [replace] against the specification's wording *)

Lemma replace_replaces_every (old new s : text) :
  old <> [] -> replaces_every old new s (replace s old new).
Proof.
  intros Hp. remember (length s) as n eqn:Hn. revert s Hn.
  induction n as [n IH] using lt_wf_ind. intros s ->.
  assert (Hlen : 0 < length old) by (destruct old; [done | simpl; lia]).
  rewrite replace_unfold by done.
  destruct (find s old) as [j|] eqn:F.
  - destruct (find_Some _ _ _ F) as [Hj Hfirst].
    pose proof (occ_at_length _ _ _ Hp Hj) as Hl.
    rewrite (occ_at_split _ _ _ Hp Hj) at 1.
    apply every_next.
    + intros i Hi. rewrite <- (occ_at_split _ _ _ Hp Hj).
      apply Hfirst. rewrite length_take in Hi. lia.
    + apply (IH (length (drop (j + length old) s))); [|reflexivity].
      rewrite length_drop. lia.
  - apply every_none. apply find_None. exact F.
Qed.

Lemma replaces_every_replace (old new s s' : text) :
  old <> [] -> replaces_every old new s s' -> s' = replace s old new.
Proof.
  intros Hp H. induction H as [s Hno | X Y Y' Hfirst _ IH].
  - symmetry. apply replace_absent. exact Hno.
  - rewrite replace_leftmost by done. rewrite IH. reflexivity.
Qed.

(** ** Counting occurrences *)

Lemma occurrences_spec (s p : text) i :
  p <> [] -> i ∈ occurrences s p <-> occ_at s i p.
Proof.
  intros Hp. unfold occurrences. rewrite list_elem_of_filter, elem_of_seq.
  split; [tauto|]. intros H. split; [exact H|].
  pose proof (occ_at_length _ _ _ Hp H). lia.
Qed.

Lemma occurrences_NoDup (s p : text) : NoDup (occurrences s p).
Proof. apply NoDup_filter, NoDup_seq. Qed.

Lemma once_unique (s p : text) i j :
  p <> [] -> length (occurrences s p) = 1 ->
  occ_at s i p -> occ_at s j p -> i = j.
Proof.
  intros Hp Hone Hi%occurrences_spec Hj%occurrences_spec; try done.
  destruct (occurrences s p) as [|x [|y l]]; try discriminate.
  apply list_elem_of_singleton in Hi, Hj. congruence.
Qed.

Lemma once_occ (s p : text) :
  p <> [] -> length (occurrences s p) = 1 -> exists i, occ_at s i p.
Proof.
  intros Hp Hone. destruct (occurrences s p) as [|x l] eqn:E; [discriminate|].
  exists x. apply occurrences_spec; [done|]. rewrite E. left.
Qed.

Lemma contains_false (s p : text) :
  contains s p = false -> forall i, ~ occ_at s i p.
Proof.
  unfold contains. destruct (find s p) eqn:F; [discriminate|].
  intros _. apply find_None. exact F.
Qed.

Lemma contains_false_iff (s p : text) :
  contains s p = false <-> forall i, ~ occ_at s i p.
Proof.
  split; [apply contains_false|].
  intros H. unfold contains. rewrite find_absent; auto.
Qed.

(** ** Occurrences after a replacement *)

Lemma occ_at_inside (A m B : text) i (p : text) :
  length A <= i -> i + length p <= length A + length m ->
  occ_at (A ++ m ++ B) i p -> occ_at m (i - length A) p.
Proof.
  intros H1 H2 Hocc.
  apply (proj1 (occ_at_app_r A (m ++ B) i p ltac:(lia))) in Hocc.
  apply (proj1 (occ_at_app_l m B (i - length A) p ltac:(lia))) in Hocc.
  exact Hocc.
Qed.

Lemma occ_at_after (A m B : text) i (p : text) :
  length A + length m <= i ->
  occ_at (A ++ m ++ B) i p -> occ_at B (i - length A - length m) p.
Proof.
  intros H1 Hocc.
  apply (proj1 (occ_at_app_r A (m ++ B) i p ltac:(lia))) in Hocc.
  apply (proj1 (occ_at_app_r m B (i - length A) p ltac:(lia))) in Hocc.
  exact Hocc.
Qed.

Lemma occ_at_take (s : text) j i (p : text) :
  i + length p <= length (take j s) -> occ_at (take j s) i p -> occ_at s i p.
Proof.
  intros Hl Hocc. rewrite <- (take_drop j s). by apply occ_at_app_l.
Qed.

(** A replacement text [r] that the pattern [q] can neither overlap nor lie
    in brings no occurrence of [q] into a text that had none. *)
Lemma replace_keeps_absent (q p r : text) :
  p <> [] -> isolated q r = true -> contains r q = false ->
  forall s, (forall i, ~ occ_at s i q) ->
  forall i, ~ occ_at (replace s p r) i q.
Proof.
  intros Hp Hiso Hr s. remember (length s) as n eqn:Hn. revert s Hn.
  induction n as [n IH] using lt_wf_ind. intros s -> Hno i.
  assert (Hlen : 0 < length p) by (destruct p; [done | simpl; lia]).
  rewrite replace_unfold by done.
  destruct (find s p) as [j|] eqn:F; [|apply Hno].
  destruct (find_Some _ _ _ F) as [Hj _].
  pose proof (occ_at_length _ _ _ Hp Hj) as Hl.
  intros Hocc.
  destruct (isolated_spec _ _ _ _ _ Hiso Hocc) as [H|[H|[H1 H2]]].
  - apply (Hno i). apply (occ_at_take s j i q H).
    exact (proj1 (occ_at_app_l _ _ i q H) Hocc).
  - apply occ_at_after in Hocc; [|exact H].
    revert Hocc. apply (IH (length (drop (j + length p) s))); [|reflexivity|].
    + rewrite length_drop. lia.
    + intros k Hk. apply (Hno (j + length p + k)). by apply occ_at_drop.
  - apply occ_at_inside in Hocc; [|done..].
    exact (contains_false _ _ Hr _ Hocc).
Qed.

(** With such a replacement text for its own pattern, one pass of [replace]
    leaves no occurrence of the pattern. *)
Lemma replace_clears (p r : text) :
  p <> [] -> isolated p r = true -> contains r p = false ->
  forall s i, ~ occ_at (replace s p r) i p.
Proof.
  intros Hp Hiso Hr s. remember (length s) as n eqn:Hn. revert s Hn.
  induction n as [n IH] using lt_wf_ind. intros s -> i.
  assert (Hlen : 0 < length p) by (destruct p; [done | simpl; lia]).
  rewrite replace_unfold by done.
  destruct (find s p) as [j|] eqn:F; [|apply find_None; exact F].
  destruct (find_Some _ _ _ F) as [Hj Hfirst].
  pose proof (occ_at_length _ _ _ Hp Hj) as Hl.
  intros Hocc.
  destruct (isolated_spec _ _ _ _ _ Hiso Hocc) as [H|[H|[H1 H2]]].
  - apply (Hfirst i).
    + rewrite length_take in H. lia.
    + apply (occ_at_take s j i p H).
      exact (proj1 (occ_at_app_l _ _ i p H) Hocc).
  - apply occ_at_after in Hocc; [|exact H].
    revert Hocc. apply (IH (length (drop (j + length p) s))); [|reflexivity].
    rewrite length_drop. lia.
  - apply occ_at_inside in Hocc; [|done..].
    exact (contains_false _ _ Hr _ Hocc).
Qed.


(** ** Occurrences side by side *)

(** Occurrences of two patterns that cannot overlap, one of which does not
    lie in the other, are disjoint. *)
Lemma occ_disjoint (s p q : text) i j :
  p <> [] -> q <> [] ->
  isolated p q = true -> contains q p = false ->
  occ_at s i p -> occ_at s j q ->
  i + length p <= j \/ j + length q <= i.
Proof.
  intros Hp Hq Hiso Hin Hi Hj.
  pose proof (occ_at_length _ _ _ Hq Hj) as Hl.
  rewrite (occ_at_split _ _ _ Hq Hj) in Hi.
  assert (Ht : length (take j s) = j) by (rewrite length_take; lia).
  destruct (isolated_spec _ _ _ _ _ Hiso Hi) as [H|[H|[H1 H2]]].
  - left. lia.
  - right. lia.
  - exfalso. apply occ_at_inside in Hi; [|done..].
    exact (contains_false _ _ Hin _ Hi).
Qed.

(** Three disjoint occurrences, from left to right, cut the text in seven
    pieces. *)
Lemma split3 (s sa sb sc : text) pa pb pc :
  sa <> [] -> sb <> [] -> sc <> [] ->
  occ_at s pa sa -> occ_at s pb sb -> occ_at s pc sc ->
  pa + length sa <= pb -> pb + length sb <= pc ->
  exists A B D E,
    s = A ++ sa ++ B ++ sb ++ D ++ sc ++ E
    /\ pa = length A
    /\ pb = length A + length sa + length B
    /\ pc = length A + length sa + length B + length sb + length D.
Proof.
  intros Ha Hb Hc Oa Ob Oc Hab Hbc.
  pose proof (occ_at_length _ _ _ Ha Oa) as La.
  set (s1 := drop (pa + length sa) s).
  assert (Ob' : occ_at s1 (pb - (pa + length sa)) sb).
  { apply occ_at_drop. replace (_ + _) with pb by lia. exact Ob. }
  pose proof (occ_at_length _ _ _ Hb Ob') as Lb.
  set (s2 := drop (pb - (pa + length sa) + length sb) s1).
  assert (Oc' : occ_at s2 (pc - (pb + length sb)) sc).
  { apply occ_at_drop, occ_at_drop. replace (_ + _) with pc by lia. exact Oc. }
  pose proof (occ_at_length _ _ _ Hc Oc') as Lc.
  exists (take pa s), (take (pb - (pa + length sa)) s1),
    (take (pc - (pb + length sb)) s2),
    (drop (pc - (pb + length sb) + length sc) s2).
  rewrite !length_take. split; [|lia].
  rewrite <- (occ_at_split s2 _ _ Hc Oc'). unfold s2.
  rewrite <- (occ_at_split s1 _ _ Hb Ob'). unfold s1.
  apply (occ_at_split s _ _ Ha Oa).
Qed.

(** A piece of a text holds no occurrence of a pattern whose only
    occurrence in the text is elsewhere. *)
Lemma piece_clean (s X Z Y q : text) k :
  q <> [] -> s = X ++ Z ++ Y ->
  length (occurrences s q) = 1 -> occ_at s k q ->
  ~ (length X <= k /\ k + length q <= length X + length Z) ->
  contains Z q = false.
Proof.
  intros Hq -> Hone Hk Hout. apply contains_false_iff. intros i Hi.
  pose proof (occ_at_length _ _ _ Hq Hi) as Hl.
  assert (Hi' : occ_at (X ++ Z ++ Y) (length X + i) q).
  { apply occ_at_app_r; [lia|]. apply occ_at_app_l.
    - lia.
    - replace (length X + i - length X) with i by lia. exact Hi. }
  pose proof (once_unique _ _ _ _ Hq Hone Hk Hi'). lia.
Qed.


(** ** Lengths *)

Lemma replace_length_le (p r : text) :
  p <> [] -> length r <= length p ->
  forall s, length (replace s p r) <= length s.
Proof.
  intros Hp Hr s. remember (length s) as n eqn:Hn. revert s Hn.
  induction n as [n IH] using lt_wf_ind. intros s ->.
  assert (Hlen : 0 < length p) by (destruct p; [done | simpl; lia]).
  rewrite replace_unfold by done.
  destruct (find s p) as [j|] eqn:F; [|lia].
  destruct (find_Some _ _ _ F) as [Hj _].
  pose proof (occ_at_length _ _ _ Hp Hj) as Hl.
  rewrite !length_app, length_take.
  pose proof (IH (length (drop (j + length p) s))
                ltac:(rewrite length_drop; lia) _ eq_refl) as H.
  rewrite length_drop in H. lia.
Qed.

Lemma replace_length_lt (p r s : text) :
  p <> [] -> length r < length p -> contains s p = true ->
  length (replace s p r) < length s.
Proof.
  intros Hp Hr Hc. rewrite replace_unfold by done.
  unfold contains in Hc.
  destruct (find s p) as [j|] eqn:F; [|discriminate].
  destruct (find_Some _ _ _ F) as [Hj _].
  pose proof (occ_at_length _ _ _ Hp Hj) as Hl.
  rewrite !length_app, length_take.
  pose proof (replace_length_le p r Hp ltac:(lia) (drop (j + length p) s)) as H.
  rewrite length_drop in H. lia.
Qed.

End StrFacts.

(** * Facts about the patch *)
Module PatchFacts.
Import Str Patch StrFacts.

(** The patch on the route module it is meant for, on a text it has nothing
    to do in, and on [doubled]. *)
Example transform_sample : transform sample = sample'.
Proof. vm_compute. reflexivity. Qed.

Example transform_plain : transform plain = plain.
Proof. vm_compute. reflexivity. Qed.

Example transform_doubled : transform doubled = s1.
Proof. vm_compute. reflexivity. Qed.

Example transform_doubled_twice : transform (transform doubled) = r1.
Proof. vm_compute. reflexivity. Qed.

Lemma rule_nonempty (ru : text * text) : ru ∈ rules -> ru.1 <> [].
Proof.
  unfold rules. rewrite !elem_of_cons, elem_of_nil.
  intros [->|[->|[->|[]]]]; discriminate.
Qed.

Lemma rule_cases (ru : text * text) :
  ru ∈ rules -> ru = rule1 \/ ru = rule2 \/ ru = rule3.
Proof.
  unfold rules. rewrite !elem_of_cons, elem_of_nil. tauto.
Qed.

(** The chain distributes over a block that stays isolated from the
    pattern of each step. *)
Lemma transform_mid (m A B : text) :
  isolated s1 m = true ->
  isolated s2 (replace m s1 r1) = true ->
  isolated s3 (replace (replace m s1 r1) s2 r2) = true ->
  transform (A ++ m ++ B) = transform A ++ transform m ++ transform B.
Proof.
  intros H1 H2 H3. unfold transform.
  rewrite (replace_mid A m B s1 r1) by done.
  rewrite (replace_mid _ _ _ s2 r2) by done.
  rewrite (replace_mid _ _ _ s3 r3) by done.
  reflexivity.
Qed.

(** Around an occurrence of a search literal the chain works on the two
    sides separately and puts the replacement literal in between. *)
Lemma transform_hit (ru : text * text) (A B : text) :
  ru ∈ rules ->
  transform (A ++ ru.1 ++ B) = transform A ++ ru.2 ++ transform B.
Proof.
  intros Hru.
  destruct (rule_cases _ Hru) as [-> | [-> | ->]];
    rewrite transform_mid by (vm_compute; reflexivity);
    unfold rule1, rule2, rule3, fst, snd.
  - replace (transform s1) with r1 by (vm_compute; reflexivity). reflexivity.
  - replace (transform s2) with r2 by (vm_compute; reflexivity). reflexivity.
  - replace (transform s3) with r3 by (vm_compute; reflexivity). reflexivity.
Qed.

Lemma transform_clean (s : text) : clean s -> transform s = s.
Proof.
  intros (H1 & H2 & H3). unfold transform.
  rewrite (replace_absent s s1) by (apply contains_false; exact H1).
  rewrite (replace_absent s s2) by (apply contains_false; exact H2).
  apply replace_absent, contains_false, H3.
Qed.


(** The three literals, each found once, from left to right in the order
    [a], [b], [c]. *)
Lemma transform_ordered (a b c : text * text) (C : text) pa pb pc :
  a ∈ rules -> b ∈ rules -> c ∈ rules ->
  (forall q, q ∈ [s1; s2; s3] -> q ∈ [a.1; b.1; c.1]) ->
  once C a.1 -> once C b.1 -> once C c.1 ->
  occ_at C pa a.1 -> occ_at C pb b.1 -> occ_at C pc c.1 ->
  pa + length a.1 <= pb -> pb + length b.1 <= pc ->
  exists A B D E,
    C = A ++ a.1 ++ B ++ b.1 ++ D ++ c.1 ++ E
    /\ transform C = A ++ a.2 ++ B ++ b.2 ++ D ++ c.2 ++ E.
Proof.
  intros Ha Hb Hc Hcover Ua Ub Uc Oa Ob Oc Hab Hbc.
  pose proof (rule_nonempty _ Ha) as Na.
  pose proof (rule_nonempty _ Hb) as Nb.
  pose proof (rule_nonempty _ Hc) as Nc.
  destruct (split3 C a.1 b.1 c.1 pa pb pc) as (A & B & D & E & HC & -> & -> & ->);
    try done.
  exists A, B, D, E. split; [exact HC|].
  assert (Hclean : forall X Z Y, C = X ++ Z ++ Y ->
     ~ (length X <= length A /\ length A + length a.1 <= length X + length Z) ->
     ~ (length X <= length A + length a.1 + length B
        /\ length A + length a.1 + length B + length b.1
           <= length X + length Z) ->
     ~ (length X <= length A + length a.1 + length B + length b.1 + length D
        /\ length A + length a.1 + length B + length b.1 + length D
           + length c.1 <= length X + length Z) ->
     clean Z).
  { intros X Z Y HZ Ka Kb Kc.
    assert (Hq : forall q, q ∈ [a.1; b.1; c.1] -> contains Z q = false).
    { intros q. rewrite !elem_of_cons, elem_of_nil.
      intros [->|[->|[->|[]]]]; eapply piece_clean; eauto. }
    repeat split; apply Hq, Hcover; rewrite !elem_of_cons; tauto. }
  assert (Na' : 0 < length a.1) by (destruct a.1; [done | simpl; lia]).
  assert (Nb' : 0 < length b.1) by (destruct b.1; [done | simpl; lia]).
  assert (Nc' : 0 < length c.1) by (destruct c.1; [done | simpl; lia]).
  assert (CA : clean A).
  { apply (Hclean [] A (a.1 ++ B ++ b.1 ++ D ++ c.1 ++ E)); simpl; [done|lia..]. }
  assert (CB : clean B).
  { apply (Hclean (A ++ a.1) B (b.1 ++ D ++ c.1 ++ E));
      rewrite ?length_app; [|lia..].
    rewrite HC, <- !app_assoc. reflexivity. }
  assert (CD : clean D).
  { apply (Hclean (A ++ a.1 ++ B ++ b.1) D (c.1 ++ E));
      rewrite ?length_app; [|lia..].
    rewrite HC, <- !app_assoc. reflexivity. }
  assert (CE : clean E).
  { apply (Hclean (A ++ a.1 ++ B ++ b.1 ++ D ++ c.1) E []);
      rewrite ?length_app; [|lia..].
    rewrite HC, <- !app_assoc, app_nil_r. reflexivity. }
  rewrite HC, !transform_hit by done.
  rewrite !transform_clean by done. reflexivity.
Qed.

Lemma perm3_rules (a b c : text * text) :
  (a, b, c) ∈ [(rule1, rule2, rule3); (rule1, rule3, rule2);
               (rule2, rule1, rule3); (rule2, rule3, rule1);
               (rule3, rule1, rule2); (rule3, rule2, rule1)] ->
  [a; b; c] ≡ₚ rules.
Proof.
  rewrite !elem_of_cons, elem_of_nil. unfold rules.
  intros [H|[H|[H|[H|[H|[H|[]]]]]]]; injection H as -> -> ->.
  - reflexivity.
  - apply perm_skip, perm_swap.
  - apply perm_swap.
  - etrans; [apply perm_skip, perm_swap | apply perm_swap].
  - etrans; [apply perm_swap | apply perm_skip, perm_swap].
  - etrans; [apply perm_swap|].
    etrans; [apply perm_skip, perm_swap | apply perm_swap].
Qed.

(** C1. When each of the three search literals occurs exactly once in the
    content, the content is cut by these occurrences into
    [A ++ _ ++ B ++ _ ++ D ++ _ ++ E], and the transformation yields the same
    text with each search literal replaced by the replacement literal of
    its rule, the pieces [A], [B], [D] and [E] being unchanged. *)
Theorem transform_exactly_once (C : text) :
  once C s1 -> once C s2 -> once C s3 ->
  exists (a b c : text * text) (A B D E : text),
    [a; b; c] ≡ₚ rules
    /\ C = A ++ a.1 ++ B ++ b.1 ++ D ++ c.1 ++ E
    /\ transform C = A ++ a.2 ++ B ++ b.2 ++ D ++ c.2 ++ E.
Proof.
  intros U1 U2 U3.
  destruct (once_occ C s1) as [p1 O1]; [done..|].
  destruct (once_occ C s2) as [p2 O2]; [done..|].
  destruct (once_occ C s3) as [p3 O3]; [done..|].
  assert (D12 : p1 + length s1 <= p2 \/ p2 + length s2 <= p1)
    by (apply (occ_disjoint C); done).
  assert (D13 : p1 + length s1 <= p3 \/ p3 + length s3 <= p1)
    by (apply (occ_disjoint C); done).
  assert (D23 : p2 + length s2 <= p3 \/ p3 + length s3 <= p2)
    by (apply (occ_disjoint C); done).
  assert (L1 : 0 < length s1) by (vm_compute; lia).
  assert (L2 : 0 < length s2) by (vm_compute; lia).
  assert (L3 : 0 < length s3) by (vm_compute; lia).
  assert (Hin : forall ru, ru = rule1 \/ ru = rule2 \/ ru = rule3 -> ru ∈ rules)
    by (intros ru; unfold rules; rewrite !elem_of_cons; tauto).
  assert (Hcov : forall x y z q : text,
            (x = s1 \/ y = s1 \/ z = s1) -> (x = s2 \/ y = s2 \/ z = s2) ->
            (x = s3 \/ y = s3 \/ z = s3) ->
            q ∈ [s1; s2; s3] -> q ∈ [x; y; z]).
  { intros x y z q H1 H2 H3. rewrite !elem_of_cons, !elem_of_nil.
    intros [->|[->|[->|[]]]]; [clear H2 H3|clear H1 H3|clear H1 H2];
      intuition congruence. }
  destruct D12, D13, D23; try lia.
  - destruct (transform_ordered rule1 rule2 rule3 C p1 p2 p3)
      as (A & B & D & E & HC & HT); try done;
      try (apply Hin; tauto);
      try (intros q; apply Hcov; unfold rule1, rule2, rule3; simpl; tauto).
    exists rule1, rule2, rule3, A, B, D, E. split; [|done].
    apply perm3_rules. rewrite !elem_of_cons. tauto.
  - destruct (transform_ordered rule1 rule3 rule2 C p1 p3 p2)
      as (A & B & D & E & HC & HT); try done;
      try (apply Hin; tauto);
      try (intros q; apply Hcov; unfold rule1, rule2, rule3; simpl; tauto).
    exists rule1, rule3, rule2, A, B, D, E. split; [|done].
    apply perm3_rules. rewrite !elem_of_cons. tauto.
  - destruct (transform_ordered rule3 rule1 rule2 C p3 p1 p2)
      as (A & B & D & E & HC & HT); try done;
      try (apply Hin; tauto);
      try (intros q; apply Hcov; unfold rule1, rule2, rule3; simpl; tauto).
    exists rule3, rule1, rule2, A, B, D, E. split; [|done].
    apply perm3_rules. rewrite !elem_of_cons. tauto.
  - destruct (transform_ordered rule2 rule1 rule3 C p2 p1 p3)
      as (A & B & D & E & HC & HT); try done;
      try (apply Hin; tauto);
      try (intros q; apply Hcov; unfold rule1, rule2, rule3; simpl; tauto).
    exists rule2, rule1, rule3, A, B, D, E. split; [|done].
    apply perm3_rules. rewrite !elem_of_cons. tauto.
  - destruct (transform_ordered rule2 rule3 rule1 C p2 p3 p1)
      as (A & B & D & E & HC & HT); try done;
      try (apply Hin; tauto);
      try (intros q; apply Hcov; unfold rule1, rule2, rule3; simpl; tauto).
    exists rule2, rule3, rule1, A, B, D, E. split; [|done].
    apply perm3_rules. rewrite !elem_of_cons. tauto.
  - destruct (transform_ordered rule3 rule2 rule1 C p3 p2 p1)
      as (A & B & D & E & HC & HT); try done;
      try (apply Hin; tauto);
      try (intros q; apply Hcov; unfold rule1, rule2, rule3; simpl; tauto).
    exists rule3, rule2, rule1, A, B, D, E. split; [|done].
    apply perm3_rules. rewrite !elem_of_cons. tauto.
Qed.


Lemma transform_exactly_once_witness :
  exists (a b c : text * text) (A B D E : text),
    [a; b; c] ≡ₚ rules
    /\ sample = A ++ a.1 ++ B ++ b.1 ++ D ++ c.1 ++ E
    /\ transform sample = A ++ a.2 ++ B ++ b.2 ++ D ++ c.2 ++ E.
Proof.
  apply (transform_exactly_once sample); vm_compute; reflexivity.
Defined.

(** C2. The rules are applied in the order rule 1, rule 2, rule 3, each to
    the content the previous one produced.  Each step is the replacement the
    specification words: its result is the one text in which every
    non-overlapping occurrence of the search literal, from the left, is
    replaced.  A step whose search literal does not occur returns the
    content as it is.  Every step is a total function: none can raise. *)
Theorem chain_in_order (C : text) :
  transform C = foldl apply_rule C rules
  /\ forall ru c, ru ∈ rules ->
       (forall c', replaces_every ru.1 ru.2 c c' <-> c' = apply_rule c ru)
       /\ (contains c ru.1 = false -> apply_rule c ru = c).
Proof.
  split; [reflexivity|]. intros ru c Hru.
  pose proof (rule_nonempty _ Hru) as Hne. unfold apply_rule. split.
  - intros c'. split.
    + apply replaces_every_replace. exact Hne.
    + intros ->. apply replace_replaces_every. exact Hne.
  - intros H. apply replace_absent, contains_false, H.
Qed.

(** After one run the second search literal is gone, whatever the input. *)
Lemma transform_clears_s2 (C : text) : contains (transform C) s2 = false.
Proof.
  apply contains_false_iff. unfold transform.
  apply (replace_keeps_absent s2 s3 r3); [done..|].
  apply (replace_clears s2 r2); done.
Qed.

(** C4, as stated, fails on [doubled]: the run yields the first search
    literal itself, so applying rules 1 and 2 again changes the content. *)
Lemma doubled_not_idempotent :
  contains (transform doubled) s1 = true
  /\ transform12 (transform doubled) <> transform doubled
  /\ ~ (forall C, transform12 (transform C) = transform C).
Proof.
  assert (H : transform12 (transform doubled) <> transform doubled)
    by (vm_compute; discriminate).
  split; [vm_compute; reflexivity|]. split; [exact H|].
  intros Hall. exact (H (Hall doubled)).
Qed.

(** C4, amended.  After one run the content never contains the second
    search literal, so applying rule 2 again changes nothing.  Applying
    rules 1 and 2 again changes nothing exactly when the content after one
    run does not contain the first search literal. *)
Theorem second_pass_first_two_rules (C : text) :
  contains (transform C) s2 = false
  /\ replace (transform C) s2 r2 = transform C
  /\ (transform12 (transform C) = transform C
      <-> contains (transform C) s1 = false).
Proof.
  pose proof (transform_clears_s2 C) as H2.
  assert (R2 : replace (transform C) s2 r2 = transform C)
    by apply replace_absent, contains_false, H2.
  split; [exact H2|]. split; [exact R2|]. unfold transform12. split.
  - intros Heq. destruct (contains (transform C) s1) eqn:H1; [|reflexivity].
    exfalso.
    assert (L1 : length (replace (transform C) s1 r1) < length (transform C))
      by (apply replace_length_lt; [done | vm_compute; lia | exact H1]).
    assert (L2 : length (replace (replace (transform C) s1 r1) s2 r2)
                 <= length (replace (transform C) s1 r1))
      by (apply replace_length_le; [done | vm_compute; lia]).
    rewrite Heq in L2. lia.
  - intros H1.
    rewrite (replace_absent _ s1) by (apply contains_false; exact H1).
    exact R2.
Qed.

(** C6. The line [import { defer, Await } from "react-router";] is
    rewritten to [import { Await } from "react-router";], alone and in any
    content; what stands before and after it is transformed on its own. *)
Theorem import_line_rewritten :
  transform import_line = import_line'
  /\ forall A B : text,
       transform (A ++ import_line ++ B)
       = transform A ++ import_line' ++ transform B.
Proof.
  split; [vm_compute; reflexivity|]. intros A B.
  rewrite transform_mid by (vm_compute; reflexivity).
  replace (transform import_line) with import_line'
    by (vm_compute; reflexivity).
  reflexivity.
Qed.

(** C7. The line [  return defer({] is rewritten to [  return {], alone
    and in any content; what stands before and after it is transformed on
    its own. *)
Theorem return_line_rewritten :
  transform return_line = return_line'
  /\ forall A B : text,
       transform (A ++ return_line ++ B)
       = transform A ++ return_line' ++ transform B.
Proof.
  split; [vm_compute; reflexivity|]. intros A B.
  rewrite transform_mid by (vm_compute; reflexivity).
  replace (transform return_line) with return_line'
    by (vm_compute; reflexivity).
  reflexivity.
Qed.

(** C8. The sequence made of the line [  });] and the line [};] is
    rewritten to [  };] followed by [};], alone and in any content; what
    stands before and after it is transformed on its own. *)
Theorem closing_rewritten :
  transform (lit "  });" ++ newline ++ lit "};")
  = lit "  };" ++ newline ++ lit "};"
  /\ forall A B : text,
       transform (A ++ (lit "  });" ++ newline ++ lit "};") ++ B)
       = transform A ++ (lit "  };" ++ newline ++ lit "};") ++ transform B.
Proof.
  split; [vm_compute; reflexivity|]. intros A B.
  apply (transform_hit rule3). unfold rules. rewrite !elem_of_cons. tauto.
Qed.

End PatchFacts.

(** * Facts about the script *)
Module ScriptFacts.
Import Str Patch Script StrFacts PatchFacts.

Ltac run_script :=
  unfold script, with_open, open, read, write, close, emit, raise,
    mbind, mret, IO_bind, IO_ret; simpl.

Lemma script_missing (w : world) :
  files w !! path = None ->
  script w = (inl (FileNotFoundError path),
              World (files w) (trace w ++ [EvOpen path ModeR])).
Proof. intros H. run_script. rewrite H. reflexivity. Qed.

Lemma script_unreadable (w : world) (f : file) :
  files w !! path = Some f -> readable f = false ->
  script w = (inl (PermissionError path),
              World (files w) (trace w ++ [EvOpen path ModeR])).
Proof. intros H Hr. run_script. rewrite H, Hr. reflexivity. Qed.

Lemma script_unwritable (w : world) (f : file) :
  files w !! path = Some f -> readable f = true -> writable f = false ->
  script w = (inl (PermissionError path),
              World (files w)
                (trace w ++ [EvOpen path ModeR; EvRead path (data f);
                             EvClose path; EvOpen path ModeW])).
Proof.
  intros H Hr Hw. run_script. rewrite H, Hr. simpl. rewrite H, Hw. simpl.
  rewrite <- !app_assoc. reflexivity.
Qed.

Lemma script_ok (w : world) (f : file) :
  files w !! path = Some f -> readable f = true -> writable f = true ->
  script w = (inr tt,
              World (<[path := File (transform (data f)) true true]> (files w))
                (trace w ++ full_run (data f))).
Proof.
  intros H Hr Hw. run_script. rewrite H, Hr. simpl. rewrite H, Hw. simpl.
  rewrite <- !app_assoc. simpl. f_equal. f_equal.
  rewrite alter_insert_eq. simpl. rewrite Hr. reflexivity.
Qed.


Lemma script_succeeds (w : world) :
  (script w).1 = inr tt ->
  exists f, files w !! path = Some f /\ readable f = true /\ writable f = true.
Proof.
  destruct (files w !! path) as [f|] eqn:H.
  - destruct (readable f) eqn:Hr.
    + destruct (writable f) eqn:Hw; [eauto|].
      rewrite (script_unwritable w f); [discriminate | done..].
    + rewrite (script_unreadable w f); [discriminate | done..].
  - rewrite script_missing by done. discriminate.
Qed.

Lemma events_of_trace (w : world) (r : error + ()) (fs : gmap string file)
    (evs : list event) :
  script w = (r, World fs (trace w ++ evs)) -> events_of w = evs.
Proof.
  intros H. unfold events_of. rewrite H. simpl. apply drop_app_length.
Qed.

Ltac script_cases w :=
  let f := fresh "f" in
  let H := fresh "Hf" in
  let Hr := fresh "Hr" in
  let Hw := fresh "Hw" in
  let E := fresh "E" in
  let Ev := fresh "Ev" in
  destruct (files w !! path) as [f|] eqn:H;
  [ destruct (readable f) eqn:Hr;
    [ destruct (writable f) eqn:Hw;
      [ pose proof (script_ok w f H Hr Hw) as E
      | pose proof (script_unwritable w f H Hr Hw) as E ]
    | pose proof (script_unreadable w f H Hr) as E ]
  | pose proof (script_missing w H) as E ];
  pose proof (events_of_trace _ _ _ _ E) as Ev.

Lemma script_frame (w : world) (p : string) :
  p <> path -> files (script w).2 !! p = files w !! p.
Proof.
  intros Hp. script_cases w; rewrite E; simpl; try reflexivity.
  apply lookup_insert_ne. congruence.
Qed.

Lemma script_trace (w : world) :
  trace (script w).2 = trace w ++ events_of w.
Proof. script_cases w; rewrite Ev, E; reflexivity. Qed.

Lemma script_events_path (w : world) (e : event) :
  e ∈ events_of w -> event_path e = Some path.
Proof.
  script_cases w; rewrite Ev; unfold full_run;
    rewrite ?elem_of_cons, elem_of_nil; intuition (subst; reflexivity).
Qed.

Lemma script_depends (w w' : world) :
  files w' !! path = files w !! path ->
  (script w').1 = (script w).1
  /\ events_of w' = events_of w
  /\ files (script w').2 !! path = files (script w).2 !! path.
Proof.
  intros Heq. script_cases w; try rewrite Hf in Heq.
  - pose proof (script_ok w' f Heq Hr Hw) as E'.
    rewrite (events_of_trace _ _ _ _ E'), Ev, E, E'. simpl.
    rewrite !lookup_insert_eq. done.
  - pose proof (script_unwritable w' f Heq Hr Hw) as E'.
    rewrite (events_of_trace _ _ _ _ E'), Ev, E, E'. simpl.
    rewrite Heq, Hf. done.
  - pose proof (script_unreadable w' f Heq Hr) as E'.
    rewrite (events_of_trace _ _ _ _ E'), Ev, E, E'. simpl.
    rewrite Heq, Hf. done.
  - pose proof (script_missing w' Heq) as E'.
    rewrite (events_of_trace _ _ _ _ E'), Ev, E, E'. simpl.
    rewrite Heq, Hf. done.
Qed.

Lemma script_complete (w : world) :
  (script w).1 = inr tt ->
  exists c, content_of w = Some c
            /\ events_of w = full_run c
            /\ content_of (script w).2 = Some (transform c).
Proof.
  intros Hok. destruct (script_succeeds w Hok) as (f & Hf & Hr & Hw).
  pose proof (script_ok w f Hf Hr Hw) as E.
  exists (data f). unfold content_of.
  rewrite (events_of_trace _ _ _ _ E), E, Hf. simpl.
  rewrite lookup_insert_eq. done.
Qed.

(** C3. When the target file holds a content in which none of the three
    search literals occurs, the transformation returns this content as it
    is; the run still opens the file for writing and writes the content
    back, and the file system after the run is the one before it. *)
Theorem clean_content_rewritten (w : world) (f : file) :
  files w !! path = Some f ->
  readable f = true -> writable f = true ->
  contains (data f) s1 = false ->
  contains (data f) s2 = false ->
  contains (data f) s3 = false ->
  transform (data f) = data f
  /\ (script w).1 = inr tt
  /\ files (script w).2 = files w
  /\ events_of w = [EvOpen path ModeR; EvRead path (data f); EvClose path;
                    EvOpen path ModeW; EvWrite path (data f); EvClose path].
Proof.
  intros Hf Hr Hw H1 H2 H3.
  assert (HT : transform (data f) = data f) by (apply transform_clean; done).
  pose proof (script_ok w f Hf Hr Hw) as E.
  rewrite (events_of_trace _ _ _ _ E), E. unfold full_run. simpl.
  rewrite HT. repeat split.
  apply insert_id. rewrite Hf. destruct f; simpl in *; congruence.
Qed.

Lemma clean_content_rewritten_witness :
  transform plain = plain
  /\ (script clean_world).1 = inr tt
  /\ files (script clean_world).2 = files clean_world
  /\ events_of clean_world
     = [EvOpen path ModeR; EvRead path plain; EvClose path;
        EvOpen path ModeW; EvWrite path plain; EvClose path].
Proof.
  apply (clean_content_rewritten clean_world (File plain true true));
    vm_compute; reflexivity.
Defined.

(** C5. When the target path does not exist, the run raises
    [FileNotFoundError] at the opening for reading: that opening is the only
    operation attempted, nothing is opened for writing or written, and the
    file system is unchanged, so the target is not created. *)
Theorem missing_file_fails (w : world) :
  files w !! path = None ->
  (script w).1 = inl (FileNotFoundError path)
  /\ events_of w = [EvOpen path ModeR]
  /\ written (events_of w) = []
  /\ files (script w).2 = files w
  /\ files (script w).2 !! path = None.
Proof.
  intros H. pose proof (script_missing w H) as E.
  rewrite (events_of_trace _ _ _ _ E), E. simpl. done.
Qed.

Lemma missing_file_fails_witness :
  (script empty_world).1 = inl (FileNotFoundError path)
  /\ events_of empty_world = [EvOpen path ModeR]
  /\ written (events_of empty_world) = []
  /\ files (script empty_world).2 = files empty_world
  /\ files (script empty_world).2 !! path = None.
Proof. apply (missing_file_fails empty_world). reflexivity. Defined.

(** C9. A run touches the target path only: every other path of the file
    system is as before; every operation the run adds to the trace is a
    file operation on the target path, so nothing is printed; the result,
    the operations and the final state of the target depend on nothing but
    the state of the target; and a run that succeeds consists of one
    opening for reading, one read, one opening for writing and one write,
    all on the target. *)
Theorem single_file_effect (w : world) :
  (forall p, p <> path -> files (script w).2 !! p = files w !! p)
  /\ trace (script w).2 = trace w ++ events_of w
  /\ (forall e, e ∈ events_of w -> event_path e = Some path)
  /\ (forall w', files w' !! path = files w !! path ->
        (script w').1 = (script w).1
        /\ events_of w' = events_of w
        /\ files (script w').2 !! path = files (script w).2 !! path)
  /\ ((script w).1 = inr tt ->
        exists c, content_of w = Some c /\ events_of w = full_run c).
Proof.
  split; [apply script_frame|]. split; [apply script_trace|].
  split; [apply script_events_path|]. split; [apply script_depends|].
  intros Hok. destruct (script_complete w Hok) as (c & H1 & H2 & _). eauto.
Qed.

(** C10. The written content is a function of the content read and of
    nothing else: a run that succeeds writes [transform c], once, where [c]
    is the content it read, so two runs that read the same content write
    the same content and leave the same content in the target, whatever
    else their worlds hold. *)
Theorem written_depends_on_read_only (w1 w2 : world) :
  (script w1).1 = inr tt -> (script w2).1 = inr tt ->
  content_of w1 = content_of w2 ->
  written (events_of w1) = written (events_of w2)
  /\ content_of (script w1).2 = content_of (script w2).2
  /\ exists c, content_of w1 = Some c
               /\ written (events_of w1) = [transform c]
               /\ content_of (script w1).2 = Some (transform c).
Proof.
  intros Hok1 Hok2 Heq.
  destruct (script_complete w1 Hok1) as (c1 & Hc1 & Hev1 & Hout1).
  destruct (script_complete w2 Hok2) as (c2 & Hc2 & Hev2 & Hout2).
  assert (c1 = c2) as <- by congruence.
  rewrite Hev1, Hev2, Hout1, Hout2. repeat split.
  exists c1. done.
Qed.

Lemma written_depends_on_read_only_witness :
  written (events_of sample_world) = written (events_of busy_world)
  /\ content_of (script sample_world).2 = content_of (script busy_world).2
  /\ exists c, content_of sample_world = Some c
               /\ written (events_of sample_world) = [transform c]
               /\ content_of (script sample_world).2 = Some (transform c).
Proof.
  apply (written_depends_on_read_only sample_world busy_world);
    vm_compute; reflexivity.
Defined.

End ScriptFacts.

(** * More about the patch *)
Module PatchMore.
Import Str Patch StrFacts PatchFacts.

Example single_pass_sample : single_pass sample = sample'.
Proof. vm_compute. reflexivity. Qed.

Example single_pass_doubled : single_pass doubled = s1.
Proof. vm_compute. reflexivity. Qed.

Lemma first_match_Some (s : text) (rs : list (text * text)) ru :
  first_match s rs = Some ru -> ru ∈ rs /\ startswith s ru.1 = true.
Proof.
  induction rs as [|r rs IH]; simpl; [discriminate|].
  destruct (startswith s r.1) eqn:E.
  - intros [= <-]. split; [left | exact E].
  - intros H. destruct (IH H). split; [by right | done].
Qed.

Lemma first_match_None (s : text) (rs : list (text * text)) ru :
  first_match s rs = None -> ru ∈ rs -> startswith s ru.1 = false.
Proof.
  induction rs as [|r rs IH]; simpl; [intros _ H; inversion H|].
  destruct (startswith s r.1) eqn:E; [discriminate|].
  intros H [->|Hin]%elem_of_cons; auto.
Qed.

Lemma single_pass_unfold (c : N) (s : text) :
  single_pass (c :: s) =
    match first_match (c :: s) rules with
    | Some ru => ru.2 ++ single_pass (drop (length ru.1 - 1) s)
    | None => c :: single_pass s
    end.
Proof.
  simp single_pass. destruct (first_match (c :: s) rules); reflexivity.
Qed.

Lemma chain_mid (rs : list (text * text)) :
  Forall (fun ru => ru.1 <> []) rs ->
  forall m A B, stays_isolated rs m = true ->
  chain rs (A ++ m ++ B) = chain rs A ++ chain rs m ++ chain rs B.
Proof.
  unfold chain. induction 1 as [|ru rs Hne _ IH]; intros m A B; simpl.
  - reflexivity.
  - rewrite andb_true_iff. intros [H1 H2].
    assert (E : apply_rule (A ++ m ++ B) ru
                = apply_rule A ru ++ apply_rule m ru ++ apply_rule B ru)
      by (unfold apply_rule; apply replace_mid; done).
    rewrite E. apply IH. exact H2.
Qed.

Lemma chain_clean (rs : list (text * text)) (A : text) :
  Forall (fun ru => ru ∈ rules) rs -> clean A -> chain rs A = A.
Proof.
  unfold chain. intros Hrs (H1 & H2 & H3).
  induction Hrs as [|ru rs Hru _ IH]; simpl; [reflexivity|].
  replace (apply_rule A ru) with A; [exact IH|].
  symmetry. apply replace_absent, contains_false.
  destruct (rule_cases _ Hru) as [-> | [-> | ->]]; assumption.
Qed.

Lemma perm_rules_cases (p : list (text * text)) :
  p ≡ₚ rules ->
  p = [rule1; rule2; rule3] \/ p = [rule1; rule3; rule2]
  \/ p = [rule2; rule1; rule3] \/ p = [rule2; rule3; rule1]
  \/ p = [rule3; rule1; rule2] \/ p = [rule3; rule2; rule1].
Proof.
  intros H. symmetry in H. apply permutations_Permutation in H.
  unfold rules in H. cbn [permutations interleave fmap list_fmap mbind
    list_bind app] in H.
  rewrite !elem_of_cons, elem_of_nil in H. tauto.
Qed.


Lemma perm_rules_in (p : list (text * text)) :
  p ≡ₚ rules -> Forall (fun ru => ru ∈ rules) p.
Proof.
  intros H. apply Forall_forall. intros ru Hru. by rewrite <- H.
Qed.

(** In any order of the rules, the chain works on the two sides of an
    occurrence of a search literal separately. *)
Lemma chain_hit (p : list (text * text)) (ru : text * text) (A B : text) :
  p ≡ₚ rules -> ru ∈ rules ->
  chain p (A ++ ru.1 ++ B) = chain p A ++ ru.2 ++ chain p B.
Proof.
  intros Hp Hru.
  assert (Hne : Forall (fun ru => ru.1 <> []) p).
  { eapply Forall_impl; [apply perm_rules_in, Hp|]. apply rule_nonempty. }
  rewrite chain_mid; [|exact Hne|].
  - f_equal. f_equal.
    destruct (perm_rules_cases p Hp) as [-> | [-> | [-> | [-> | [-> | ->]]]]];
      destruct (rule_cases _ Hru) as [-> | [-> | ->]];
      vm_compute; reflexivity.
  - destruct (perm_rules_cases p Hp) as [-> | [-> | [-> | [-> | [-> | ->]]]]];
      destruct (rule_cases _ Hru) as [-> | [-> | ->]];
      vm_compute; reflexivity.
Qed.

Lemma no_start_clean (A C : text) :
  (forall i ru, i < length A -> ru ∈ rules -> ~ occ_at (A ++ C) i ru.1) ->
  clean A.
Proof.
  intros H.
  assert (Hq : forall ru, ru ∈ rules -> contains A ru.1 = false).
  { intros ru Hru. apply contains_false_iff. intros i Hi.
    pose proof (rule_nonempty _ Hru) as Hne.
    pose proof (occ_at_length _ _ _ Hne Hi) as Hl.
    assert (0 < length ru.1) by (destruct ru.1; [done | simpl; lia]).
    apply (H i ru); [lia | done |]. apply occ_at_app_l; [lia | exact Hi]. }
  repeat split.
  - apply (Hq rule1). unfold rules. rewrite !elem_of_cons. tauto.
  - apply (Hq rule2). unfold rules. rewrite !elem_of_cons. tauto.
  - apply (Hq rule3). unfold rules. rewrite !elem_of_cons. tauto.
Qed.

(** In any order of the rules, the chain copies a prefix in which no search
    literal starts and goes on as one pass from the left. *)
Lemma chain_single_pass (p : list (text * text)) :
  p ≡ₚ rules ->
  forall n (C A : text), length C <= n ->
  (forall i ru, i < length A -> ru ∈ rules -> ~ occ_at (A ++ C) i ru.1) ->
  chain p (A ++ C) = A ++ single_pass C.
Proof.
  intros Hp. induction n as [|n IH]; intros C A Hn Hno.
  - destruct C; [|simpl in Hn; lia]. simp single_pass.
    rewrite app_nil_r in *. apply chain_clean; [by apply perm_rules_in|].
    apply (no_start_clean A []). by rewrite app_nil_r.
  - destruct C as [|c C].
    { simp single_pass. rewrite app_nil_r in *.
      apply chain_clean; [by apply perm_rules_in|].
      apply (no_start_clean A []). by rewrite app_nil_r. }
    rewrite single_pass_unfold.
    destruct (first_match (c :: C) rules) as [ru|] eqn:F.
    + destruct (first_match_Some _ _ _ F) as [Hru Hst].
      pose proof (rule_nonempty _ Hru) as Hne.
      apply startswith_iff in Hst as [t Ht].
      assert (Hd : drop (length ru.1 - 1) C = t).
      { destruct ru.1 as [|o q] eqn:E; [done|]. simpl in Ht.
        injection Ht as _ ->. simpl. rewrite Nat.sub_0_r.
        apply drop_app_length. }
      rewrite Hd, Ht, chain_hit by done.
      rewrite (chain_clean p A);
        [|by apply perm_rules_in | apply (no_start_clean A (c :: C)), Hno].
      f_equal. f_equal. apply (IH t []).
      * apply (f_equal length) in Ht. rewrite length_app in Ht.
        destruct ru.1; [done|]. simpl in *. lia.
      * simpl. intros; lia.
    + replace (A ++ c :: C) with ((A ++ [c]) ++ C)
        by (rewrite <- app_assoc; reflexivity).
      rewrite (IH C (A ++ [c])).
      * rewrite <- app_assoc. reflexivity.
      * simpl in Hn. lia.
      * intros i ru Hi Hru. rewrite <- app_assoc. simpl.
        rewrite length_app in Hi. simpl in Hi.
        destruct (decide (i < length A)) as [Hlt|Hge]; [by apply Hno|].
        assert (i = length A) as -> by lia.
        unfold occ_at. rewrite drop_app_length.
        rewrite (first_match_None _ _ _ F Hru). discriminate.
Qed.

(** X1. The three chained replacements amount to one pass over the content
    from the left that replaces each search literal where it meets it and
    copies every other character. *)
Theorem transform_single_pass (C : text) : transform C = single_pass C.
Proof.
  change (transform C) with (chain rules ([] ++ C)).
  apply (chain_single_pass rules (reflexivity _) (length C)); [lia|].
  simpl. intros; lia.
Qed.

(** X2. The order of the three replacements does not matter: applied in
    any of the six orders, the rules give the result of the script. *)
Theorem rule_order_irrelevant (p : list (text * text)) (C : text) :
  p ≡ₚ rules -> foldl apply_rule C p = transform C.
Proof.
  intros Hp. change (foldl apply_rule C p) with (chain p ([] ++ C)).
  change (transform C) with (chain rules ([] ++ C)).
  rewrite (chain_single_pass p Hp (length C) C []);
    [|lia | simpl; intros; lia].
  rewrite (chain_single_pass rules (reflexivity _) (length C) C []);
    [reflexivity | lia | simpl; intros; lia].
Qed.

Lemma rule_order_irrelevant_witness :
  foldl apply_rule sample [rule3; rule1; rule2] = transform sample.
Proof.
  apply (rule_order_irrelevant [rule3; rule1; rule2] sample).
  unfold rules. etrans; [apply perm_swap | apply perm_skip, perm_swap].
Defined.


(** ** Lengths and fixed points *)

Lemma rule_shrinks (ru : text * text) :
  ru ∈ rules -> length ru.2 < length ru.1.
Proof.
  intros Hru. destruct (rule_cases _ Hru) as [-> | [-> | ->]];
    vm_compute; lia.
Qed.

Lemma apply_rule_length_le (ru : text * text) (s : text) :
  ru ∈ rules -> length (apply_rule s ru) <= length s.
Proof.
  intros Hru. apply replace_length_le; [by apply rule_nonempty|].
  pose proof (rule_shrinks _ Hru). lia.
Qed.

Lemma apply_rule_length_lt (ru : text * text) (s : text) :
  ru ∈ rules -> contains s ru.1 = true ->
  length (apply_rule s ru) < length s.
Proof.
  intros Hru Hc. apply replace_length_lt;
    [by apply rule_nonempty | by apply rule_shrinks | exact Hc].
Qed.

Lemma in_rules_1 : rule1 ∈ rules.
Proof. unfold rules. rewrite !elem_of_cons. tauto. Qed.

Lemma in_rules_2 : rule2 ∈ rules.
Proof. unfold rules. rewrite !elem_of_cons. tauto. Qed.

Lemma in_rules_3 : rule3 ∈ rules.
Proof. unfold rules. rewrite !elem_of_cons. tauto. Qed.

Lemma transform_length_le (C : text) : length (transform C) <= length C.
Proof.
  unfold transform.
  pose proof (apply_rule_length_le rule1 C in_rules_1).
  pose proof (apply_rule_length_le rule2 (replace C s1 r1) in_rules_2).
  pose proof (apply_rule_length_le rule3
                (replace (replace C s1 r1) s2 r2) in_rules_3).
  unfold apply_rule in *. simpl in *. lia.
Qed.

Lemma transform_length_lt (C : text) :
  ~ clean C -> length (transform C) < length C.
Proof.
  intros Hn. unfold transform.
  pose proof (apply_rule_length_le rule1 C in_rules_1) as L1.
  pose proof (apply_rule_length_le rule2 (replace C s1 r1) in_rules_2) as L2.
  pose proof (apply_rule_length_le rule3
                (replace (replace C s1 r1) s2 r2) in_rules_3) as L3.
  unfold apply_rule in L1, L2, L3. simpl in L1, L2, L3.
  destruct (contains C s1) eqn:H1.
  { pose proof (apply_rule_length_lt rule1 C in_rules_1 H1) as L.
    unfold apply_rule in L. simpl in L. lia. }
  rewrite (replace_absent C s1) in * by (apply contains_false; exact H1).
  destruct (contains C s2) eqn:H2.
  { pose proof (apply_rule_length_lt rule2 C in_rules_2 H2) as L.
    unfold apply_rule in L. simpl in L. lia. }
  rewrite (replace_absent C s2) in * by (apply contains_false; exact H2).
  destruct (contains C s3) eqn:H3.
  { pose proof (apply_rule_length_lt rule3 C in_rules_3 H3) as L.
    unfold apply_rule in L. simpl in L. lia. }
  exfalso. apply Hn. done.
Qed.

Lemma clean_dec (C : text) : {clean C} + {~ clean C}.
Proof.
  unfold clean.
  destruct (contains C s1); [right; intros (? & _); discriminate|].
  destruct (contains C s2); [right; intros (_ & ? & _); discriminate|].
  destruct (contains C s3); [right; intros (_ & _ & ?); discriminate|].
  left. done.
Defined.

Lemma transform_fixed_iff (C : text) : transform C = C <-> clean C.
Proof.
  split; [|apply transform_clean].
  intros Heq. destruct (clean_dec C) as [?|Hn]; [done|].
  pose proof (transform_length_lt C Hn) as L. rewrite Heq in L. lia.
Qed.

(** X3. The transformation never lengthens the content; it returns the
    content unchanged exactly when none of the three search literals occurs
    in it, and otherwise returns a strictly shorter text. *)
Theorem transform_shrinks_or_fixes (C : text) :
  length (transform C) <= length C
  /\ (transform C = C <-> clean C)
  /\ (transform C <> C -> length (transform C) < length C).
Proof.
  split; [apply transform_length_le|]. split; [apply transform_fixed_iff|].
  intros Hne. apply transform_length_lt. intros Hc.
  apply Hne, transform_clean, Hc.
Qed.

(** ** Only deletions *)

Lemma replace_sublist (p r : text) :
  p <> [] -> r `sublist_of` p -> forall s, replace s p r `sublist_of` s.
Proof.
  intros Hp Hr s. remember (length s) as n eqn:Hn. revert s Hn.
  induction n as [n IH] using lt_wf_ind. intros s ->.
  assert (Hlen : 0 < length p) by (destruct p; [done | simpl; lia]).
  rewrite replace_unfold by done.
  destruct (find s p) as [j|] eqn:F; [|reflexivity].
  destruct (find_Some _ _ _ F) as [Hj _].
  pose proof (occ_at_length _ _ _ Hp Hj) as Hl.
  rewrite (occ_at_split _ _ _ Hp Hj) at 3.
  apply sublist_app; [reflexivity|]. apply sublist_app; [exact Hr|].
  apply (IH (length (drop (j + length p) s))); [|reflexivity].
  rewrite length_drop. lia.
Qed.

Lemma rule_deletes (ru : text * text) :
  ru ∈ rules -> ru.2 `sublist_of` ru.1.
Proof.
  intros Hru. destruct (rule_cases _ Hru) as [-> | [-> | ->]].
  - change rule1.1 with (lit "defer, " ++ r1).
    apply sublist_inserts_l. reflexivity.
  - change rule2.1 with (lit "return " ++ lit "defer(" ++ lit "{").
    change rule2.2 with (lit "return " ++ lit "{").
    apply sublist_app; [reflexivity|]. apply sublist_inserts_l. reflexivity.
  - change rule3.1 with (lit "  }" ++ lit ")" ++ lit ";" ++ newline ++ lit "};").
    change rule3.2 with (lit "  }" ++ lit ";" ++ newline ++ lit "};").
    apply sublist_app; [reflexivity|]. apply sublist_inserts_l. reflexivity.
Qed.

(** X4. The transformation only deletes characters: its result is the
    content with some characters left out, the others in their order. *)
Theorem transform_sublist (C : text) : transform C `sublist_of` C.
Proof.
  unfold transform.
  etrans; [apply (replace_sublist s3 r3); [done | apply (rule_deletes rule3 in_rules_3)]|].
  etrans; [apply (replace_sublist s2 r2); [done | apply (rule_deletes rule2 in_rules_2)]|].
  apply (replace_sublist s1 r1); [done | apply (rule_deletes rule1 in_rules_1)].
Qed.

(** ** Characters that are never touched *)

Lemma replace_count_char (x : N) (p r : text) :
  p <> [] -> count_char p x = count_char r x ->
  forall s, count_char (replace s p r) x = count_char s x.
Proof.
  unfold count_char. intros Hp Hc s.
  remember (length s) as n eqn:Hn. revert s Hn.
  induction n as [n IH] using lt_wf_ind. intros s ->.
  assert (Hlen : 0 < length p) by (destruct p; [done | simpl; lia]).
  rewrite replace_unfold by done.
  destruct (find s p) as [j|] eqn:F; [|reflexivity].
  destruct (find_Some _ _ _ F) as [Hj _].
  pose proof (occ_at_length _ _ _ Hp Hj) as Hl.
  rewrite (occ_at_split _ _ _ Hp Hj) at 3.
  rewrite !count_occ_app, Hc. f_equal. f_equal.
  apply (IH (length (drop (j + length p) s))); [|reflexivity].
  rewrite length_drop. lia.
Qed.

Lemma rule_count_char (x : N) (ru : text * text) :
  ~ In x (lit "defer, ()") -> ru ∈ rules ->
  count_char ru.1 x = count_char ru.2 x.
Proof.
  intros Hx Hru. unfold count_char.
  assert (H0 : forall d, incl d (lit "defer, ()") ->
                         count_occ N.eq_dec d x = 0).
  { intros d Hd. apply count_occ_not_In. intros Hin. apply Hx, Hd, Hin. }
  destruct (rule_cases _ Hru) as [-> | [-> | ->]].
  - change rule1.1 with (lit "defer, " ++ r1). change rule1.2 with r1.
    rewrite count_occ_app, (H0 (lit "defer, ")); [reflexivity|].
    intros y. vm_compute. tauto.
  - change rule2.1 with (lit "return " ++ lit "defer(" ++ lit "{").
    change rule2.2 with (lit "return " ++ lit "{").
    rewrite !count_occ_app, (H0 (lit "defer(")); [reflexivity|].
    intros y. vm_compute. tauto.
  - change rule3.1 with (lit "  }" ++ lit ")" ++ lit ";" ++ newline ++ lit "};").
    change rule3.2 with (lit "  }" ++ lit ";" ++ newline ++ lit "};").
    rewrite !count_occ_app, (H0 (lit ")")); [reflexivity|].
    intros y. vm_compute. tauto.
Qed.

(** X5. A character that is none of those of [defer, ()] occurs in the
    result as often as in the content.  This holds for the line feed: the
    transformation keeps the number of lines. *)
Theorem transform_keeps_other_characters (C : text) (x : N) :
  ~ In x (lit "defer, ()") ->
  count_char (transform C) x = count_char C x.
Proof.
  intros Hx. unfold transform.
  rewrite (replace_count_char x s3 r3);
    [|done | apply (rule_count_char x rule3 Hx in_rules_3)].
  rewrite (replace_count_char x s2 r2);
    [|done | apply (rule_count_char x rule2 Hx in_rules_2)].
  apply (replace_count_char x s1 r1);
    [done | apply (rule_count_char x rule1 Hx in_rules_1)].
Qed.

Lemma transform_keeps_other_characters_witness :
  count_char (transform sample) 10 = count_char sample 10.
Proof.
  apply (transform_keeps_other_characters sample 10).
  vm_compute. intuition discriminate.
Defined.


(** ** Running the transformation again *)

(** X6. After a run the content contains neither the second nor the third
    search literal; a second run changes the content exactly when the
    first search literal occurs in it after the first run. *)
Theorem second_run_changes_iff (C : text) :
  contains (transform C) s2 = false
  /\ contains (transform C) s3 = false
  /\ (transform (transform C) = transform C
      <-> contains (transform C) s1 = false).
Proof.
  pose proof (transform_clears_s2 C) as H2.
  assert (H3 : contains (transform C) s3 = false).
  { apply contains_false_iff. unfold transform.
    apply (replace_clears s3 r3); done. }
  split; [exact H2|]. split; [exact H3|].
  rewrite transform_fixed_iff. unfold clean. tauto.
Qed.

Lemma iter_fixed (n : nat) (C : text) :
  transform C = C -> Nat.iter n transform C = C.
Proof.
  intros H. induction n as [|n IH]; simpl; [reflexivity|].
  rewrite IH. exact H.
Qed.

Lemma iter_stable (n : nat) :
  forall C : text, length C <= n ->
  transform (Nat.iter n transform C) = Nat.iter n transform C.
Proof.
  induction n as [|n IH]; intros C Hn.
  - destruct C; [reflexivity | simpl in Hn; lia].
  - destruct (clean_dec C) as [Hc|Hc].
    + rewrite iter_fixed by (apply transform_clean, Hc).
      apply transform_clean, Hc.
    + rewrite Nat.iter_succ_r. apply IH.
      pose proof (transform_length_lt C Hc). lia.
Qed.

(** X7. Running the transformation again and again comes to rest: after as
    many runs as the content has characters, one more run changes
    nothing. *)
Theorem reruns_stabilise (C : text) :
  transform (Nat.iter (length C) transform C)
  = Nat.iter (length C) transform C.
Proof. apply iter_stable. lia. Qed.

End PatchMore.

(** * More about the script *)
Module ScriptMore.
Import Str Patch Script StrFacts PatchFacts ScriptFacts.




(** X10. No run creates or deletes a file or changes what may be done with
    one: at every path, the file system after a run has a file exactly
    when it had one before, with the same permissions. *)
Theorem run_keeps_files_and_permissions (w : world) (p : string) :
  readable <$> files (script w).2 !! p = readable <$> files w !! p
  /\ writable <$> files (script w).2 !! p = writable <$> files w !! p.
Proof.
  script_cases w; rewrite E; simpl; try done.
  destruct (decide (p = path)) as [->|Hne].
  - rewrite lookup_insert_eq, Hf. simpl. rewrite Hr, Hw. done.
  - rewrite lookup_insert_ne by congruence. done.
Qed.

(** X11. After a run that succeeds a second run succeeds too: it reads the
    transformed content, writes its transform and leaves it in the
    target. *)
Theorem second_run_succeeds (w : world) (c : text) :
  content_of w = Some c -> (script w).1 = inr tt ->
  (script (script w).2).1 = inr tt
  /\ events_of (script w).2 = full_run (transform c)
  /\ content_of (script (script w).2).2 = Some (transform (transform c)).
Proof.
  intros Hc Hok. destruct (script_succeeds w Hok) as (f & Hf & Hr & Hw).
  unfold content_of in Hc. rewrite Hf in Hc. injection Hc as <-.
  pose proof (script_ok w f Hf Hr Hw) as E.
  assert (Hf' : files (script w).2 !! path
                = Some (File (transform (data f)) true true))
    by (rewrite E; simpl; apply lookup_insert_eq).
  pose proof (script_ok (script w).2 _ Hf' eq_refl eq_refl) as E'.
  simpl in E'. rewrite (events_of_trace _ _ _ _ E'), E'.
  unfold content_of. simpl. rewrite lookup_insert_eq. done.
Qed.

Lemma second_run_succeeds_witness :
  (script (script sample_world).2).1 = inr tt
  /\ events_of (script sample_world).2 = full_run (transform sample)
  /\ content_of (script (script sample_world).2).2
     = Some (transform (transform sample)).
Proof.
  apply (second_run_succeeds sample_world sample); vm_compute; reflexivity.
Defined.



End ScriptMore.
